(** * Swarm protocol: hybrid logical clock, compact codec, version vectors

    A shallow embedding of [swarm-protocol/src/Clock.js] together with the
    parts of [Base64x64.js], [Stamp.js] and [VV.js] that the clock relies
    on. The clock follows its source; the codec, the timestamp and the
    version vector follow the design document, and every such definition
    says so in its doc comment. *)

From Stdlib Require Import ZArith NArith Lia List String Ascii Bool.
From stdpp Require Import gmap.
Import ListNotations.

Local Open Scope string_scope.
Local Open Scope Z_scope.

(** ** Errors

    JavaScript exceptions are modelled by an explicit result type; the kinds
    are the ones of the design document (section 7). *)

Inductive Error : Type :=
| FormatError
| RangeError
| OverflowError.

Inductive Result (A : Type) : Type :=
| Ok (a : A)
| Err (e : Error).

Arguments Ok {A} a.
Arguments Err {A} e.

Definition bind {A B : Type} (r : Result A) (k : A -> Result B) : Result B :=
  match r with
  | Ok a => k a
  | Err e => Err e
  end.

(** ** Compact Codec (Base64x64) *)

Module Base64x64.

(** The value held by a Base64x64 object: a JavaScript string. *)
Definition t := string.

(** The custom base64 alphabet of the header comment of [Clock.js]
    ([01...89AB...YZ_ab...yz~]), in increasing order. *)
Definition alphabet : string :=
  "0123456789ABCDEFGHIJKLMNOPQRSTUVWXYZ_abcdefghijklmnopqrstuvwxyz~".

Definition zero_symbol : ascii := "0"%char.
Definition top_symbol : ascii := "~"%char.

(** Full length of a value: eleven symbols ([MMDHmSssiii]). *)
Definition full_length : nat := 11.

Fixpoint index_from (c : ascii) (s : string) (i : N) : option N :=
  match s with
  | EmptyString => None
  | String d r => if Ascii.eqb c d then Some i else index_from c r (N.succ i)
  end.

(** Rank of a character in the alphabet, [None] outside it. *)
Definition rank (c : ascii) : option N := index_from c alphabet 0%N.

(** The symbol of a given rank (ranks above 63 are never asked for). *)
Definition symbol (k : N) : ascii :=
  match String.get (N.to_nat k) alphabet with
  | Some c => c
  | None => top_symbol
  end.

(** The ranks of the symbols of a string, [None] when a character is outside
    the alphabet. *)
Fixpoint digits (s : string) : option (list N) :=
  match s with
  | EmptyString => Some []
  | String c r =>
      match rank c, digits r with
      | Some k, Some ks => Some (k :: ks)
      | _, _ => None
      end
  end.

(** All ranks, and the lists of ranks that fit the alphabet. *)
Definition ranks : list N := map N.of_nat (seq 0 64).

Definition in_range (ks : list N) : Prop := forall k, In k ks -> (k < 64)%N.

Fixpoint undigits (ks : list N) : string :=
  match ks with
  | [] => EmptyString
  | k :: r => String (symbol k) (undigits r)
  end.

Fixpoint zeros (n : nat) : string :=
  match n with
  | O => EmptyString
  | S m => String zero_symbol (zeros m)
  end.

(** Right padding with the zero symbol up to [n] characters. *)
Definition pad (n : nat) (s : string) : string :=
  s ++ zeros (n - String.length s).

(** Big-endian base-64 value of a list of ranks. *)
Definition number (ks : list N) : N :=
  fold_left (fun acc k => (acc * 64 + k)%N) ks 0%N.

(** Modelled from the spec: [decode] of [Base64x64.js], which is not among
    the sources. Section 4.1: fails with FormatError on a character outside
    the alphabet and treats a string shorter than full length as implicitly
    zero-padded on the right. A string longer than the full length is not a
    Compact Value (section 3: 0 to 11 symbols) and is rejected as well. *)
Definition decode (s : t) : Result N :=
  match digits (pad full_length s) with
  | None => Err FormatError
  | Some ks =>
      if (String.length s <=? full_length)%nat then Ok (number ks)
      else Err FormatError
  end.


Definition sign (c : comparison) : Z :=
  match c with
  | Lt => -1
  | Eq => 0
  | Gt => 1
  end.

(** Modelled from the spec: [compare] of the codec (section 4.1), the
    intended fast path: a direct lexicographic comparison, by character code
    as JavaScript compares strings, of the two strings right-padded to equal
    length. *)
Definition compare (a b : t) : Z :=
  let n := Nat.max (String.length a) (String.length b) in
  sign (String.compare (pad n a) (pad n b)).

(** Increment of a list of ranks read as a numeral of its own length;
    [None] is the carry out of the most significant position. *)
Fixpoint inc_digits (ks : list N) : option (list N) :=
  match ks with
  | [] => None
  | k :: r =>
      match inc_digits r with
      | Some r' => Some (k :: r')
      | None =>
          if (k <? 63)%N then Some (N.succ k :: map (fun _ => 0%N) r)
          else None
      end
  end.

(** Modelled from the spec: [increment] (the [next] of [Base64x64.js], not
    among the sources). Section 4.1: the encoding of the value plus one at
    the same symbol length; fails with OverflowError if the length's
    capacity is exceeded, and with the FormatError of [decode] on a
    character outside the alphabet. *)
Definition increment (s : t) : Result t :=
  match digits s with
  | None => Err FormatError
  | Some ks =>
      match inc_digits ks with
      | None => Err OverflowError
      | Some ks' => Ok (undigits ks')
      end
  end.

Definition prefix (n : nat) (s : string) : string := String.substring 0 n s.

(** Shortest prefix of [v] of length [n], [n+1], ... that compares greater
    than [base]; [v] itself when there is none among the [fuel] shortest. *)
Fixpoint relax_from (fuel n : nat) (v base : t) : t :=
  match fuel with
  | O => v
  | S f =>
      if compare (prefix n v) base =? 1 then prefix n v
      else relax_from f (S n) v base
  end.

(** Modelled from the spec: [relax] of [Base64x64.js], not among the
    sources. Section 4.2: the value truncated against [baseline] down to
    [minLength] symbols, as far as it remains greater than the baseline. *)
Definition relax (v base : t) (minLength : Z) : t :=
  let n := Z.to_nat minLength in
  relax_from (String.length v - n) n v base.

End Base64x64.

(** ** Timestamp (Stamp) *)

Module Stamp.

(** A Timestamp: a value and the origin (replica) that minted it. *)
Record t : Type := mk { value : Base64x64.t; origin : Base64x64.t }.

(** What JavaScript callers hand over where a Timestamp is expected: the
    wire text or a Stamp object. *)
Inductive arg : Type :=
| Wire (text : string)
| Obj (s : t).

(** Splits a text at its first [-]. *)
Fixpoint split_dash (s : string) : string * option string :=
  match s with
  | EmptyString => (EmptyString, None)
  | String c r =>
      if Ascii.eqb c "-"%char then (EmptyString, Some r)
      else let (v, o) := split_dash r in (String c v, o)
  end.

(** Modelled from the spec: [new Stamp(text)] of [Stamp.js], not among the
    sources. Sections 4.2 and 6: the wire form is [<value>-<origin>], a
    missing origin is ["0"], and parsing fails with FormatError if the
    value portion is empty or contains invalid symbols. *)
Definition parse (text : string) : Result t :=
  let (v, o) := split_dash text in
  match v, Base64x64.digits v with
  | EmptyString, _ => Err FormatError
  | _, None => Err FormatError
  | _, Some _ => Ok (mk v (match o with Some o' => o' | None => "0" end))
  end.


(** Modelled from the spec: [Stamp.as], not among the sources: a Stamp
    object is taken as it is and a wire text is parsed. *)
Definition as_ (a : arg) : Result t :=
  match a with
  | Wire text => parse text
  | Obj s => Ok s
  end.

(** Modelled from the spec: [gt] of [Stamp.js], not among the sources.
    Section 3: the primary key is the value, the origin breaks ties between
    equal values. *)
Definition gt (a b : t) : bool :=
  match Base64x64.compare (value a) (value b) with
  | 1 => true
  | 0 => Base64x64.compare (origin a) (origin b) =? 1
  | _ => false
  end.

(** Modelled from the spec: [next] of [Stamp.js], not among the sources.
    Section 4.2: a Timestamp with the incremented value and the given
    origin. *)
Definition next (s : t) (origin : Base64x64.t) : Result t :=
  bind (Base64x64.increment (value s)) (fun v => Ok (mk v origin)).

End Stamp.

(** ** Hybrid Clock ([Clock.js]) *)

Module Clock.

(** The [options] object of the constructor; an absent property is [None],
    [learnOffset] is read for its truth value only. *)
Record Options : Type := mkOptions {
  minLength : option Z;
  learnOffset : bool;
  offset : option Z
}.

(** The fields of a Clock object. *)
Record t : Type := mk {
  _last : Stamp.t;
  _origin : Base64x64.t;
  _offset : Z;
  _minlen : Z
}.

Definition set_last (c : t) (s : Stamp.t) : t :=
  mk s (_origin c) (_offset c) (_minlen c).

Definition set_offset (c : t) (o : Z) : t :=
  mk (_last c) (_origin c) o (_minlen c).

Definition set_minlen (c : t) (m : Z) : t :=
  mk (_last c) (_origin c) (_offset c) m.

(** JavaScript's [x|0] on an integer: reduction to a signed 32-bit
    integer. *)
Definition to_int32 (x : Z) : Z := (x + 2 ^ 31) mod 2 ^ 32 - 2 ^ 31.

(** Calls made on a clock and what an observer sees of each of them. *)
Inductive Call : Type :=
| Issue (wall : Z)
| See (stamp : Stamp.arg).

Inductive Event : Type :=
| Issued (s : Stamp.t)
| Seen (s : Stamp.t)
| Threw (e : Error).

(** The Timestamp an event puts on record, if any. *)
Definition stamp_of (e : Event) : list Stamp.t :=
  match e with
  | Issued s | Seen s => [s]
  | Threw _ => []
  end.

(** Everything a sequence of events puts on record, oldest first. *)
Definition recorded (events : list Event) : list Stamp.t :=
  flat_map stamp_of events.

Section WithCalendar.

(** The Calendar Encoding of [Base64x64.js] is not among the sources and its
    field layout is left open by the design document (section 9); the clock
    is verified for every encoding. [calendar] writes a millisecond count as
    a value, [ms] reads the millisecond field of a value. *)
Variable calendar : Z -> Base64x64.t.
Variable ms : Base64x64.t -> Z.

(** Modelled from the spec: [Stamp.now(origin, offset)], not among the
    sources. Section 4.3: reads wall-clock-plus-offset via the Calendar
    Encoding, producing a candidate Timestamp with the given origin. The
    wall-clock reading [wall] is an input of the call. *)
Definition now (origin : Base64x64.t) (offset wall : Z) : Stamp.t :=
  Stamp.mk (calendar (wall + offset)) origin.

(** [constructor (now, options)]; [wall] is what [Base64x64.now().ms]
    reads. *)
Definition new (now0 : Stamp.arg) (options : option Options) (wall : Z)
  : Result t :=
  bind (match now0 with
        | Stamp.Wire text => Stamp.parse text
        | Stamp.Obj s => Ok s
        end) (fun now0 =>
  let c := mk now0 (Stamp.origin now0) 0 6 in
  match options with
  | None => Ok c
  | Some o =>
      let c :=
        match minLength o with
        | Some m => if m =? 0 then c else set_minlen c m
        | None => c
        end in
      if learnOffset o then
        Ok (set_offset c (ms (Stamp.value now0) - wall))
      else
        match offset o with
        | Some k => if k =? 0 then Ok c else Ok (set_offset c (to_int32 k))
        | None => Ok c
        end
  end).

(** [issueTimestamp ()]: the returned Timestamp and the clock afterwards. *)
Definition issueTimestamp (c : t) (wall : Z) : Result (Stamp.t * t) :=
  let next := now (_origin c) (_offset c) wall in
  let last := _last c in
  bind (if negb (Stamp.gt next last) then
          Stamp.next last (_origin c)
        else if _minlen c <? 8 then
          Ok (Stamp.mk
                (Base64x64.relax (Stamp.value next) (Stamp.value last)
                   (_minlen c))
                (_origin c))
        else Ok next) (fun next =>
  Ok (next, set_last c next)).

(** [seeTimestamp (stamp)]: the clock afterwards. *)
Definition seeTimestamp (c : t) (stamp : Stamp.arg) : Result t :=
  bind (Stamp.as_ stamp) (fun stamp =>
  if Stamp.gt stamp (_last c) then Ok (set_last c stamp) else Ok c).

(** One call as an observer sees it. A call that throws leaves the clock as
    it was (both methods assign [_last] last) and the caller goes on. *)
Definition step (c : t) (call : Call) : Event * t :=
  match call with
  | Issue wall =>
      match issueTimestamp c wall with
      | Ok (s, c') => (Issued s, c')
      | Err e => (Threw e, c)
      end
  | See a =>
      match Stamp.as_ a, seeTimestamp c a with
      | Ok s, Ok c' => (Seen s, c')
      | Err e, _ | _, Err e => (Threw e, c)
      end
  end.

(** A sequence of calls on one clock: what is observed, and the clock at
    the end. *)
Fixpoint run (c : t) (calls : list Call) : list Event :=
  match calls with
  | [] => []
  | call :: rest => fst (step c call) :: run (snd (step c call)) rest
  end.

Fixpoint final (c : t) (calls : list Call) : t :=
  match calls with
  | [] => c
  | call :: rest => final (snd (step c call)) rest
  end.

End WithCalendar.

(** A concrete Calendar Encoding to run the clock on: the millisecond count
    written as eight symbols, most significant first. It preserves order
    and is reversible; the field layout of the real encoding is not in the
    sources. *)
Fixpoint encode_fixed (w : nat) (n : N) : string :=
  match w with
  | O => EmptyString
  | S w' =>
      encode_fixed w' (n / 64) ++
      String (Base64x64.symbol (n mod 64)) EmptyString
  end.

Definition plain_calendar (millis : Z) : Base64x64.t :=
  encode_fixed 8 (Z.to_N millis).

Definition plain_ms (v : Base64x64.t) : Z :=
  match Base64x64.digits (Base64x64.pad 8 (Base64x64.prefix 8 v)) with
  | Some ks => Z.of_N (Base64x64.number ks)
  | None => 0
  end.

End Clock.

(** ** Version Vector *)

Module VV.

(** Modelled from the spec: the Version Vector of [VV.js], which is not among
    the sources. Section 3: a mapping from origin to the highest Timestamp
    value seen from that origin, at most one entry per origin. Origins and
    values are Compact Values; a well-formed one is the encoding of exactly
    one unsigned integer (section 3) and is kept here as that integer.
    [merge] takes the per-origin maximum (section 4.5). *)
Definition merge (a b : gmap N N) : gmap N N :=
  union_with (fun x y => Some (N.max x y)) a b.

End VV.

(** * Properties *)

(** ** The alphabet *)

Module Base64x64Facts.
Import Base64x64.

Lemma In_ranks k : (k < 64)%N -> In k ranks.
Proof.
  intros H. unfold ranks. apply in_map_iff. exists (N.to_nat k). split.
  - apply N2Nat.id.
  - apply in_seq. lia.
Qed.

Lemma rank_symbol k : (k < 64)%N -> rank (symbol k) = Some k.
Proof.
  intros H. apply In_ranks in H.
  assert (E : forallb (fun k =>
            match rank (symbol k) with
            | Some k' => (k' =? k)%N
            | None => false
            end) ranks = true) by (vm_compute; reflexivity).
  rewrite List.forallb_forall in E. specialize (E k H).
  destruct (rank (symbol k)) as [k'|]; [|discriminate].
  apply N.eqb_eq in E. now subst.
Qed.

Lemma index_from_sound c s i k :
  index_from c s i = Some k ->
  (i <= k)%N /\ String.get (N.to_nat (k - i)) s = Some c.
Proof.
  revert i. induction s as [|d r IH]; intros i H; simpl in H; [discriminate|].
  destruct (Ascii.eqb_spec c d) as [->|Hne].
  - injection H as <-. split; [lia|]. now rewrite N.sub_diag.
  - apply IH in H as [Hle Hget]. split; [lia|].
    replace (N.to_nat (k - i)) with (S (N.to_nat (k - N.succ i))) by lia.
    exact Hget.
Qed.

Lemma get_lt n s c : String.get n s = Some c -> (n < String.length s)%nat.
Proof.
  revert n. induction s as [|d r IH]; intros [|n] H; simpl in *;
    try discriminate; try lia.
  apply IH in H. lia.
Qed.

Lemma rank_inv c k : rank c = Some k -> (k < 64)%N /\ c = symbol k.
Proof.
  intros H. apply index_from_sound in H as [_ H]. rewrite N.sub_0_r in H.
  split.
  - apply get_lt in H. change (String.length alphabet) with 64%nat in H. lia.
  - unfold symbol. now rewrite H.
Qed.

(** The order of the symbols by character code is the order of their
    ranks: the alphabet is written in increasing ASCII order. *)
Lemma symbol_compare i j :
  (i < 64)%N -> (j < 64)%N ->
  Ascii.compare (symbol i) (symbol j) = (i ?= j)%N.
Proof.
  intros Hi Hj. apply In_ranks in Hi, Hj.
  assert (H : forallb (fun i => forallb (fun j =>
            match Ascii.compare (symbol i) (symbol j), (i ?= j)%N with
            | Eq, Eq | Lt, Lt | Gt, Gt => true
            | _, _ => false
            end) ranks) ranks = true) by (vm_compute; reflexivity).
  rewrite List.forallb_forall in H. specialize (H i Hi).
  rewrite List.forallb_forall in H. specialize (H j Hj).
  destruct (Ascii.compare (symbol i) (symbol j)), (i ?= j)%N;
    congruence.
Qed.

Lemma rank_compare c d i j :
  rank c = Some i -> rank d = Some j -> Ascii.compare c d = (i ?= j)%N.
Proof.
  intros Hc Hd. apply rank_inv in Hc as [Hi ->], Hd as [Hj ->].
  now apply symbol_compare.
Qed.

(** ** Comparison of right-padded strings *)

Lemma ascii_compare_refl c : Ascii.compare c c = Eq.
Proof. unfold Ascii.compare. apply N.compare_refl. Qed.

Lemma string_compare_refl s : String.compare s s = Eq.
Proof.
  induction s as [|c r IH]; simpl; [reflexivity|].
  now rewrite ascii_compare_refl.
Qed.

Lemma string_compare_Lt_trans x y z :
  String.compare x y = Lt -> String.compare y z = Lt ->
  String.compare x z = Lt.
Proof.
  revert y z. induction x as [|a x IH]; intros [|b y] [|c z]; simpl;
    try discriminate; try reflexivity.
  unfold Ascii.compare.
  destruct (N.compare_spec (N_of_ascii a) (N_of_ascii b)) as [Eab|Lab|Gab];
    destruct (N.compare_spec (N_of_ascii b) (N_of_ascii c)) as [Ebc|Lbc|Gbc];
    try discriminate; intros H1 H2.
  - rewrite Eab, Ebc, N.compare_refl. eauto.
  - rewrite Eab. now apply N.compare_lt_iff in Lbc as ->.
  - rewrite <- Ebc. now apply N.compare_lt_iff in Lab as ->.
  - assert (L : (N_of_ascii a < N_of_ascii c)%N) by lia.
    now apply N.compare_lt_iff in L as ->.
Qed.

Lemma append_nil (y : string) : EmptyString ++ y = y.
Proof. reflexivity. Qed.

Lemma append_cons a (x y : string) : String a x ++ y = String a (x ++ y).
Proof. reflexivity. Qed.

Lemma string_compare_app x y z :
  String.length x = String.length y ->
  String.compare (x ++ z) (y ++ z) = String.compare x y.
Proof.
  revert y. induction x as [|a x IH]; intros [|b y] H; simpl in H;
    try discriminate.
  - rewrite !append_nil. apply string_compare_refl.
  - injection H as H. rewrite !append_cons. simpl. rewrite (IH y H).
    reflexivity.
Qed.

Lemma length_zeros n : String.length (zeros n) = n.
Proof. induction n; simpl; congruence. Qed.

Lemma length_append (x y : string) :
  String.length (x ++ y) = (String.length x + String.length y)%nat.
Proof.
  induction x as [|a x IH]; [reflexivity|].
  rewrite append_cons. simpl. now rewrite IH.
Qed.

Lemma length_pad n s :
  (String.length s <= n)%nat -> String.length (pad n s) = n.
Proof. intros H. unfold pad. rewrite length_append, length_zeros. lia. Qed.

Lemma append_assoc (x y z : string) : (x ++ y) ++ z = x ++ (y ++ z).
Proof.
  induction x as [|a x IH]; [reflexivity|].
  rewrite !append_cons. now rewrite IH.
Qed.

Lemma append_empty_r (x : string) : x ++ EmptyString = x.
Proof.
  induction x as [|a x IH]; [reflexivity|].
  rewrite append_cons. now rewrite IH.
Qed.

Lemma zeros_add a b : zeros (a + b) = zeros a ++ zeros b.
Proof.
  induction a as [|a IH]; [reflexivity|].
  simpl. rewrite append_cons. now rewrite IH.
Qed.

Lemma pad_extend m n s :
  (String.length s <= m)%nat -> (m <= n)%nat ->
  pad n s = pad m s ++ zeros (n - m).
Proof.
  intros H1 H2. unfold pad. rewrite append_assoc, <- zeros_add.
  do 2 f_equal. lia.
Qed.

Lemma pad_exact n s : String.length s = n -> pad n s = s.
Proof.
  intros <-. unfold pad. rewrite Nat.sub_diag. apply append_empty_r.
Qed.

(** Padding further than the longer of the two strings does not change the
    outcome of the comparison. *)
Lemma compare_pad n a b :
  (String.length a <= n)%nat -> (String.length b <= n)%nat ->
  compare a b = sign (String.compare (pad n a) (pad n b)).
Proof.
  intros Ha Hb. unfold compare.
  set (m := Nat.max (String.length a) (String.length b)).
  rewrite (pad_extend m n a), (pad_extend m n b) by lia.
  rewrite string_compare_app; [reflexivity|].
  rewrite !length_pad; lia.
Qed.

Lemma compare_same_length a b :
  String.length a = String.length b ->
  compare a b = sign (String.compare a b).
Proof.
  intros H. rewrite (compare_pad (String.length a)) by lia.
  now rewrite !pad_exact.
Qed.

Lemma compare_range a b :
  compare a b = -1 \/ compare a b = 0 \/ compare a b = 1.
Proof. unfold compare. destruct (String.compare _ _); simpl; auto. Qed.

Lemma compare_refl a : compare a a = 0.
Proof. unfold compare. now rewrite string_compare_refl. Qed.

Lemma compare_antisym a b : compare a b = - compare b a.
Proof.
  unfold compare. rewrite (Nat.max_comm (String.length b)).
  rewrite String.compare_antisym. now destruct (String.compare _ _).
Qed.

Lemma sign_eq_0 c : sign c = 0 -> c = Eq.
Proof. now destruct c. Qed.

Lemma sign_eq_1 c : sign c = 1 -> c = Gt.
Proof. now destruct c. Qed.

(** Values that compare equal are interchangeable in a comparison. *)
Lemma compare_eq_l a b c : compare a b = 0 -> compare a c = compare b c.
Proof.
  set (n := Nat.max (String.length a)
              (Nat.max (String.length b) (String.length c))).
  rewrite (compare_pad n a b), (compare_pad n a c), (compare_pad n b c)
    by lia.
  intros H. apply sign_eq_0, String.compare_eq_iff in H. now rewrite H.
Qed.

Lemma compare_gt_trans a b c :
  compare a b = 1 -> compare b c = 1 -> compare a c = 1.
Proof.
  set (n := Nat.max (String.length a)
              (Nat.max (String.length b) (String.length c))).
  rewrite (compare_pad n a b), (compare_pad n a c), (compare_pad n b c)
    by lia.
  intros H1 H2. apply sign_eq_1 in H1, H2.
  rewrite String.compare_antisym in H1, H2 |- *.
  destruct (String.compare (pad n b) (pad n a)) eqn:E1; try discriminate.
  destruct (String.compare (pad n c) (pad n b)) eqn:E2; try discriminate.
  now rewrite (string_compare_Lt_trans _ _ _ E2 E1).
Qed.

(** ** Digits *)

Lemma in_range_cons k ks :
  in_range (k :: ks) <-> (k < 64)%N /\ in_range ks.
Proof.
  unfold in_range. simpl. split.
  - intros H. split; [apply H; now left|]. intros j Hj. apply H. now right.
  - intros [Hk H] j [<-|Hj]; auto.
Qed.

Lemma digits_cons c r ks :
  digits (String c r) = Some ks ->
  exists k ks', rank c = Some k /\ digits r = Some ks' /\ ks = k :: ks'.
Proof.
  simpl. destruct (rank c) as [k|]; [|discriminate].
  destruct (digits r) as [ks'|]; [|discriminate].
  intros [= <-]. eauto.
Qed.

Lemma digits_sound s ks :
  digits s = Some ks ->
  s = undigits ks /\ in_range ks /\ length ks = String.length s.
Proof.
  revert ks. induction s as [|c r IH]; intros ks H.
  - injection H as <-. repeat split. intros k [].
  - apply digits_cons in H as (k & ks' & Hk & Hr & ->).
    apply IH in Hr as (-> & Hrange & Hlen). apply rank_inv in Hk as [Hk ->].
    repeat split.
    + apply in_range_cons. auto.
    + simpl. now rewrite Hlen.
Qed.

Lemma digits_undigits ks : in_range ks -> digits (undigits ks) = Some ks.
Proof.
  induction ks as [|k r IH]; intros H; [reflexivity|].
  apply in_range_cons in H as [Hk Hr]. simpl.
  now rewrite (rank_symbol k Hk), (IH Hr).
Qed.

Lemma length_undigits ks : String.length (undigits ks) = length ks.
Proof. induction ks as [|k r IH]; simpl; [reflexivity | now rewrite IH]. Qed.

(** ** Increment *)

Lemma inc_digits_length ks ks' :
  inc_digits ks = Some ks' -> length ks' = length ks.
Proof.
  revert ks'. induction ks as [|k r IH]; intros ks' H; simpl in H;
    [discriminate|].
  destruct (inc_digits r) as [r'|].
  - injection H as <-. simpl. now rewrite (IH r').
  - destruct (k <? 63)%N; [|discriminate]. injection H as <-.
    simpl. now rewrite length_map.
Qed.

Lemma inc_digits_in_range ks ks' :
  in_range ks -> inc_digits ks = Some ks' -> in_range ks'.
Proof.
  revert ks'. induction ks as [|k r IH]; intros ks' Hr H; simpl in H;
    [discriminate|].
  apply in_range_cons in Hr as [Hk Hr].
  destruct (inc_digits r) as [r'|].
  - injection H as <-. apply in_range_cons. auto.
  - destruct (N.ltb_spec k 63); [|discriminate]. injection H as <-.
    apply in_range_cons. split; [lia|].
    intros j Hj. apply in_map_iff in Hj as (? & <- & _). lia.
Qed.

Lemma inc_digits_greater ks ks' :
  in_range ks -> inc_digits ks = Some ks' ->
  String.compare (undigits ks') (undigits ks) = Gt.
Proof.
  revert ks'. induction ks as [|k r IH]; intros ks' Hr H; simpl in H;
    [discriminate|].
  apply in_range_cons in Hr as [Hk Hr].
  destruct (inc_digits r) as [r'|].
  - injection H as <-. simpl. rewrite ascii_compare_refl. now apply IH.
  - destruct (N.ltb_spec k 63); [|discriminate]. injection H as <-.
    simpl. rewrite symbol_compare by lia.
    assert (G : (N.succ k ?= k)%N = Gt) by (apply N.compare_gt_iff; lia).
    now rewrite G.
Qed.


Lemma increment_length s s' :
  increment s = Ok s' -> String.length s' = String.length s.
Proof.
  unfold increment. destruct (digits s) as [ks|] eqn:D; [|discriminate].
  destruct (inc_digits ks) as [ks'|] eqn:I; [|discriminate].
  intros [= <-]. apply digits_sound in D as (_ & _ & <-).
  rewrite length_undigits. now apply inc_digits_length.
Qed.

(** An incremented value is well formed again. *)
Lemma increment_well_formed s s' :
  increment s = Ok s' -> exists ks', digits s' = Some ks'.
Proof.
  unfold increment. destruct (digits s) as [ks|] eqn:D; [|discriminate].
  destruct (inc_digits ks) as [ks'|] eqn:I; [|discriminate].
  intros [= <-]. exists ks'. apply digits_undigits.
  apply digits_sound in D as (_ & R & _).
  now apply (inc_digits_in_range ks).
Qed.

(** An incremented value compares greater than the value it comes from. *)
Lemma increment_greater s s' : increment s = Ok s' -> compare s' s = 1.
Proof.
  intros H. rewrite compare_same_length by now apply increment_length.
  unfold increment in H. destruct (digits s) as [ks|] eqn:D; [|discriminate].
  destruct (inc_digits ks) as [ks'|] eqn:I; [|discriminate].
  injection H as <-. apply digits_sound in D as (-> & Hr & _).
  now rewrite (inc_digits_greater ks ks').
Qed.



(** ** Relaxation *)

Lemma length_prefix m v :
  (m <= String.length v)%nat -> String.length (prefix m v) = m.
Proof.
  unfold prefix. revert v. induction m as [|m IH]; intros [|c v] H;
    simpl in *; try reflexivity; try lia.
  rewrite IH; lia.
Qed.

Lemma prefix_append m v : exists rest, v = prefix m v ++ rest.
Proof.
  unfold prefix. revert v. induction m as [|m IH]; intros [|c v]; simpl.
  - now exists EmptyString.
  - now exists (String c v).
  - now exists EmptyString.
  - destruct (IH v) as [rest E]. exists rest. rewrite append_cons.
    now rewrite <- E.
Qed.

Lemma relax_from_cases fuel n v base :
  relax_from fuel n v base = v \/
  exists m, (n <= m < n + fuel)%nat /\
            relax_from fuel n v base = prefix m v /\
            compare (prefix m v) base = 1.
Proof.
  revert n. induction fuel as [|f IH]; intros n; simpl; [now left|].
  destruct (Z.eqb_spec (compare (prefix n v) base) 1) as [E|_].
  - right. exists n. split; [lia|]. auto.
  - destruct (IH (S n)) as [->|(m & Hm & -> & E)]; [now left|].
    right. exists m. split; [lia|]. auto.
Qed.

(** A relaxed value is the value itself or one of its proper prefixes, of at
    least the minimum length, that compares greater than the baseline. *)
Lemma relax_cases v base minLength :
  relax v base minLength = v \/
  exists m, (Z.to_nat minLength <= m < String.length v)%nat /\
            relax v base minLength = prefix m v /\
            compare (prefix m v) base = 1.
Proof.
  unfold relax.
  destruct (relax_from_cases (String.length v - Z.to_nat minLength)
              (Z.to_nat minLength) v base) as [E|(m & Hm & E & G)];
    [now left|].
  right. exists m. split; [lia|]. auto.
Qed.

(** Relaxing truncates: the result is a prefix of the value and keeps at
    least the minimum length when the value has it. *)
Lemma relax_shape v base minLength :
  (exists rest, v = relax v base minLength ++ rest) /\
  ((Z.to_nat minLength <= String.length v)%nat ->
   (Z.to_nat minLength <= String.length (relax v base minLength))%nat).
Proof.
  destruct (relax_cases v base minLength) as [->|(m & Hm & -> & _)].
  - split; [|trivial]. exists EmptyString. now rewrite append_empty_r.
  - split; [apply prefix_append|]. intros _. rewrite length_prefix; lia.
Qed.

(** ** Decoding *)

Lemma fold_number ks acc :
  fold_left (fun a k => (a * 64 + k)%N) ks acc =
  (acc * 64 ^ N.of_nat (length ks) + number ks)%N.
Proof.
  unfold number. revert acc.
  induction ks as [|k r IH]; intros acc; cbn [fold_left length].
  - change (64 ^ N.of_nat 0)%N with 1%N. lia.
  - rewrite (IH (acc * 64 + k)%N), (IH (0 * 64 + k)%N).
    replace (N.of_nat (S (length r))) with (N.succ (N.of_nat (length r)))
      by lia.
    rewrite N.pow_succ_r'. lia.
Qed.

Lemma number_cons k r :
  number (k :: r) = (k * 64 ^ N.of_nat (length r) + number r)%N.
Proof.
  unfold number at 1. cbn [fold_left]. rewrite fold_number. lia.
Qed.

Lemma number_bound ks :
  in_range ks -> (number ks < 64 ^ N.of_nat (length ks))%N.
Proof.
  induction ks as [|k r IH]; intros H.
  - cbv. reflexivity.
  - apply in_range_cons in H as [Hk Hr]. specialize (IH Hr).
    rewrite number_cons.
    replace (N.of_nat (length (k :: r))) with (N.succ (N.of_nat (length r)))
      by (simpl; lia).
    rewrite N.pow_succ_r'. nia.
Qed.

(** On well-formed strings of one length the order by character code is
    the order of the numbers they denote. *)
Lemma string_compare_number x y dx dy :
  digits x = Some dx -> digits y = Some dy ->
  String.length x = String.length y ->
  String.compare x y = (number dx ?= number dy)%N.
Proof.
  revert y dx dy. induction x as [|c x IH]; intros [|d y] dx dy Hx Hy Hl;
    simpl in Hl; try discriminate.
  - injection Hx as <-. injection Hy as <-. reflexivity.
  - apply digits_cons in Hx as (i & dx' & Hi & Hx & ->).
    apply digits_cons in Hy as (j & dy' & Hj & Hy & ->).
    injection Hl as Hl. simpl. rewrite (rank_compare c d i j Hi Hj).
    rewrite (IH y dx' dy' Hx Hy Hl), !number_cons.
    destruct (digits_sound _ _ Hx) as (_ & Rx & Lx).
    destruct (digits_sound _ _ Hy) as (_ & Ry & Ly).
    apply number_bound in Rx, Ry. rewrite Lx in *. rewrite Ly, <- Hl in *.
    set (p := (64 ^ N.of_nat (String.length x))%N) in *.
    destruct (N.compare_spec i j) as [->|Lij|Gij].
    + destruct (N.compare_spec (number dx') (number dy')) as [->|L|G];
        symmetry.
      * apply N.compare_refl.
      * apply N.compare_lt_iff. lia.
      * apply N.compare_gt_iff. lia.
    + symmetry. apply N.compare_lt_iff. nia.
    + symmetry. apply N.compare_gt_iff. nia.
Qed.

Lemma decode_ok s x :
  decode s = Ok x ->
  (String.length s <= full_length)%nat /\
  exists ks, digits (pad full_length s) = Some ks /\ x = number ks.
Proof.
  unfold decode. destruct (digits (pad full_length s)) as [ks|];
    [|discriminate].
  destruct (Nat.leb_spec (String.length s) full_length); [|discriminate].
  intros [= <-]. eauto.
Qed.



End Base64x64Facts.

(** ** Claims about the codec *)

Section CodecClaims.
Import Base64x64 Base64x64Facts.

(** C7. For all valid Compact Codec strings [a] and [b], the lexicographic
    comparison of the two strings right-padded to equal length returns the
    same result in -1, 0, 1 as the numeric comparison of [decode a] and
    [decode b]. *)
Theorem compare_agrees_with_decode (a b : Base64x64.t) (x y : N) :
  decode a = Ok x -> decode b = Ok y ->
  Base64x64.compare a b = sign (x ?= y)%N.
Proof.
  intros Ha Hb.
  apply decode_ok in Ha as (La & da & Da & ->).
  apply decode_ok in Hb as (Lb & db & Db & ->).
  rewrite (compare_pad full_length a b La Lb). f_equal.
  apply string_compare_number; trivial.
  now rewrite !length_pad.
Qed.

Lemma compare_agrees_with_decode_witness :
  Base64x64.compare "1CQKn" "1CQKn0A" =
  sign (1376504033019166720 ?= 1376504033186938880)%N.
Proof.
  apply (compare_agrees_with_decode "1CQKn" "1CQKn0A"); vm_compute; reflexivity.
Defined.

End CodecClaims.

(** ** The order of Timestamps *)

Module StampFacts.
Import Base64x64Facts.

Lemma compare_gt_ge_trans a b c :
  Base64x64.compare a b = 1 -> Base64x64.compare c b <> 1 ->
  Base64x64.compare a c = 1.
Proof.
  intros Hab Hcb.
  destruct (compare_range c b) as [E|[E|E]]; [| |contradiction].
  - apply (compare_gt_trans a b c Hab). rewrite compare_antisym, E.
    reflexivity.
  - rewrite compare_antisym, (compare_eq_l c b a E), compare_antisym, Hab.
    reflexivity.
Qed.

Lemma gt_true a b :
  Stamp.gt a b = true <->
  Base64x64.compare (Stamp.value a) (Stamp.value b) = 1 \/
  (Base64x64.compare (Stamp.value a) (Stamp.value b) = 0 /\
   Base64x64.compare (Stamp.origin a) (Stamp.origin b) = 1).
Proof.
  unfold Stamp.gt.
  destruct (compare_range (Stamp.value a) (Stamp.value b)) as [E|[E|E]];
    rewrite E; simpl.
  - split; [discriminate | intros [H|[H _]]; discriminate].
  - rewrite Z.eqb_eq. split; [auto | intros [H|[_ H]]; [discriminate|auto]].
  - split; auto.
Qed.

Lemma gt_false a b :
  Stamp.gt a b = false <->
  Base64x64.compare (Stamp.value a) (Stamp.value b) = -1 \/
  (Base64x64.compare (Stamp.value a) (Stamp.value b) = 0 /\
   Base64x64.compare (Stamp.origin a) (Stamp.origin b) <> 1).
Proof.
  unfold Stamp.gt.
  destruct (compare_range (Stamp.value a) (Stamp.value b)) as [E|[E|E]];
    rewrite E; simpl.
  - split; auto.
  - rewrite Z.eqb_neq. split; [auto | intros [H|[_ H]]; [discriminate|auto]].
  - split; [discriminate | intros [H|[H _]]; discriminate].
Qed.

Lemma gt_irrefl a : Stamp.gt a a = false.
Proof.
  apply gt_false. right. rewrite !compare_refl. split; [reflexivity|lia].
Qed.

Lemma gt_asym a b : Stamp.gt a b = true -> Stamp.gt b a = false.
Proof.
  rewrite gt_true, gt_false.
  rewrite (compare_antisym (Stamp.value b)), (compare_antisym (Stamp.origin b)).
  lia.
Qed.

(** [a] above [b] and [c] not above [b] put [a] above [c]. *)
Lemma gt_ge_trans a b c :
  Stamp.gt a b = true -> Stamp.gt c b = false -> Stamp.gt a c = true.
Proof.
  rewrite !gt_true, gt_false. intros [Hv|[Hv Ho]] [Hc|[Hc Hco]].
  - left. apply (compare_gt_ge_trans _ (Stamp.value b)); [trivial|lia].
  - left. apply (compare_gt_ge_trans _ (Stamp.value b)); [trivial|lia].
  - left. rewrite (compare_eq_l _ _ _ Hv), compare_antisym, Hc. reflexivity.
  - right. split.
    + rewrite (compare_eq_l _ _ _ Hv), compare_antisym, Hc. reflexivity.
    + now apply (compare_gt_ge_trans _ (Stamp.origin b)).
Qed.

Lemma gt_neq a b : Stamp.gt a b = true -> a <> b.
Proof. intros H ->. rewrite gt_irrefl in H. discriminate. Qed.

(** The Timestamp [next] returns is above the one it is taken from. *)
Lemma next_gt s o r : Stamp.next s o = Ok r -> Stamp.gt r s = true.
Proof.
  unfold Stamp.next.
  destruct (Base64x64.increment (Stamp.value s)) as [v|e] eqn:E; simpl;
    [|discriminate].
  intros [= <-]. apply gt_true. left. now apply increment_greater.
Qed.

Lemma next_origin s o r : Stamp.next s o = Ok r -> Stamp.origin r = o.
Proof.
  unfold Stamp.next. destruct (Base64x64.increment (Stamp.value s)); simpl;
    [|discriminate].
  now intros [= <-].
Qed.


End StampFacts.

(** ** The clock, one call at a time *)

Module ClockFacts.
Import Clock StampFacts Base64x64Facts.

Section WithCalendar.
Variable calendar : Z -> Base64x64.t.

Lemma issue_fallback c wall :
  Stamp.gt (now calendar (_origin c) (_offset c) wall) (_last c) = false ->
  issueTimestamp calendar c wall =
  bind (Stamp.next (_last c) (_origin c)) (fun r => Ok (r, set_last c r)).
Proof. intros H. unfold issueTimestamp. now rewrite H. Qed.

Lemma issue_relaxed c wall :
  Stamp.gt (now calendar (_origin c) (_offset c) wall) (_last c) = true ->
  _minlen c < 8 ->
  let r := Stamp.mk
             (Base64x64.relax (calendar (wall + _offset c))
                (Stamp.value (_last c)) (_minlen c))
             (_origin c) in
  issueTimestamp calendar c wall = Ok (r, set_last c r).
Proof.
  intros H Hm. unfold issueTimestamp. rewrite H. simpl.
  apply Z.ltb_lt in Hm. now rewrite Hm.
Qed.

Lemma issue_full c wall :
  Stamp.gt (now calendar (_origin c) (_offset c) wall) (_last c) = true ->
  8 <= _minlen c ->
  let r := now calendar (_origin c) (_offset c) wall in
  issueTimestamp calendar c wall = Ok (r, set_last c r).
Proof.
  intros H Hm. unfold issueTimestamp. rewrite H. simpl.
  apply Z.ltb_ge in Hm. now rewrite Hm.
Qed.

(** What every successful issue has: the clock changes in [_last] only, the
    result carries the clock's origin and is above the previous [_last]. *)
Lemma issue_ok c wall r c' :
  issueTimestamp calendar c wall = Ok (r, c') ->
  c' = set_last c r /\ Stamp.origin r = _origin c /\
  Stamp.gt r (_last c) = true.
Proof.
  set (cand := now calendar (_origin c) (_offset c) wall).
  destruct (Stamp.gt cand (_last c)) eqn:G.
  - destruct (Z.lt_ge_cases (_minlen c) 8) as [Hm|Hm].
    + rewrite (issue_relaxed c wall G Hm). intros [= <- <-].
      repeat split. apply gt_true. simpl.
      destruct (relax_cases (calendar (wall + _offset c))
                  (Stamp.value (_last c)) (_minlen c))
        as [->|(m & _ & -> & E)]; [|now left].
      now apply gt_true in G.
    + rewrite (issue_full c wall G Hm). intros [= <- <-]. now repeat split.
  - rewrite (issue_fallback c wall G).
    destruct (Stamp.next (_last c) (_origin c)) as [s|e] eqn:N; simpl;
      [|discriminate].
    intros [= <- <-]. repeat split.
    + now apply next_origin in N.
    + now apply next_gt in N.
Qed.



Lemma see_obj c s :
  seeTimestamp c (Stamp.Obj s) =
  Ok (if Stamp.gt s (_last c) then set_last c s else c).
Proof. unfold seeTimestamp. simpl. now destruct (Stamp.gt s (_last c)). Qed.

Lemma see_ok c a c' :
  seeTimestamp c a = Ok c' ->
  exists s, Stamp.as_ a = Ok s /\
            c' = if Stamp.gt s (_last c) then set_last c s else c.
Proof.
  unfold seeTimestamp. destruct (Stamp.as_ a) as [s|e]; simpl; [|discriminate].
  intros H. exists s. split; [reflexivity|].
  destruct (Stamp.gt s (_last c)); congruence.
Qed.

(** After a Timestamp was seen it is not above [_last]. *)
Lemma see_dominates c a c' s :
  seeTimestamp c a = Ok c' -> Stamp.as_ a = Ok s ->
  Stamp.gt s (_last c') = false.
Proof.
  intros H A. apply see_ok in H as (s' & A' & ->).
  rewrite A in A'. injection A' as <-.
  destruct (Stamp.gt s (_last c)) eqn:G; [apply gt_irrefl | exact G].
Qed.

(** [_last] never moves down. *)
Lemma see_keeps_below c a c' p :
  seeTimestamp c a = Ok c' -> Stamp.gt p (_last c) = false ->
  Stamp.gt p (_last c') = false.
Proof.
  intros H P. apply see_ok in H as (s & _ & ->).
  destruct (Stamp.gt s (_last c)) eqn:G; [|exact P].
  simpl. apply gt_asym. now apply (gt_ge_trans s (_last c) p).
Qed.

Lemma issue_keeps_below c wall r c' p :
  issueTimestamp calendar c wall = Ok (r, c') ->
  Stamp.gt p (_last c) = false ->
  Stamp.gt r p = true /\ Stamp.gt p (_last c') = false.
Proof.
  intros H P. apply issue_ok in H as (-> & _ & G).
  assert (R : Stamp.gt r p = true) by now apply (gt_ge_trans r (_last c) p).
  split; [exact R | now apply gt_asym].
Qed.

(** One call keeps the invariant of the clock: nothing on record is above
    [_last]; and what it issues is above everything on record. *)
Lemma step_invariant c call (before : list Stamp.t) :
  (forall p, In p before -> Stamp.gt p (_last c) = false) ->
  (forall r, fst (step calendar c call) = Issued r ->
             forall p, In p before -> Stamp.gt r p = true) /\
  (forall p, In p (stamp_of (fst (step calendar c call)) ++ before)%list ->
             Stamp.gt p (_last (snd (step calendar c call))) = false).
Proof.
  intros Inv. destruct call as [wall|a]; cbn [step].
  - destruct (issueTimestamp calendar c wall) as [[s c']|e] eqn:I;
      cbn [fst snd stamp_of app].
    + split.
      * intros r [= <-] p Hp.
        now apply (issue_keeps_below c wall s c' p I (Inv p Hp)).
      * intros p [<-|Hp].
        -- apply issue_ok in I as (-> & _ & _). apply gt_irrefl.
        -- now apply (issue_keeps_below c wall s c' p I (Inv p Hp)).
    + split; [discriminate | exact Inv].
  - destruct (Stamp.as_ a) as [s|e] eqn:A;
      destruct (seeTimestamp c a) as [c'|e'] eqn:S;
      cbn [fst snd stamp_of app];
      try (split; [discriminate | exact Inv]).
    split; [discriminate|]. intros p [<-|Hp].
    + now apply (see_dominates c a c').
    + now apply (see_keeps_below c a c' p S (Inv p Hp)).
Qed.

(** Over a sequence of calls: every result is above whatever was on record
    before the sequence and whatever the earlier calls put on record. *)
Lemma run_monotone calls :
  forall c (before : list Stamp.t),
    (forall p, In p before -> Stamp.gt p (_last c) = false) ->
    forall pre r post,
      run calendar c calls = (pre ++ Issued r :: post)%list ->
      forall p,
        In p before \/ (exists e, In e pre /\ In p (stamp_of e)) ->
        Stamp.gt r p = true.
Proof.
  induction calls as [|call rest IH]; intros c before Inv pre r post E p Hp.
  - destruct pre; discriminate.
  - destruct (step_invariant c call before Inv) as [Above Inv'].
    cbn [run] in E. destruct pre as [|ev pre]; injection E as E1 E2.
    + destruct Hp as [Hp|(e & [] & _)]. now apply (Above r E1).
    + rewrite E1 in Inv'.
      apply (IH _ (stamp_of ev ++ before)%list Inv' pre r post E2).
      destruct Hp as [Hp|(e & [<-|He] & Hp)].
      * left. apply in_or_app. now right.
      * left. apply in_or_app. now left.
      * right. now exists e.
Qed.

Lemma set_last_last c : set_last c (_last c) = c.
Proof. now destruct c. Qed.

(** A call replaces [_last] at most. *)
Lemma step_config c call :
  snd (step calendar c call) =
  set_last c (_last (snd (step calendar c call))).
Proof.
  destruct call as [wall|a]; simpl.
  - destruct (issueTimestamp calendar c wall) as [[s c']|e] eqn:I; simpl.
    + now apply issue_ok in I as (-> & _ & _).
    + now rewrite set_last_last.
  - destruct (Stamp.as_ a) as [s|e] eqn:A;
      destruct (seeTimestamp c a) as [c'|e'] eqn:S; simpl;
      try now rewrite set_last_last.
    apply see_ok in S as (s' & _ & ->).
    destruct (Stamp.gt s' (_last c)); simpl; [reflexivity|].
    now rewrite set_last_last.
Qed.

Lemma final_config c calls :
  final calendar c calls = set_last c (_last (final calendar c calls)).
Proof.
  revert c. induction calls as [|call rest IH]; intros c; simpl.
  - now rewrite set_last_last.
  - rewrite IH at 1. now rewrite step_config.
Qed.

Lemma step_origin c call :
  _origin (snd (step calendar c call)) = _origin c.
Proof. now rewrite step_config. Qed.

(** Whatever a sequence of calls issues carries the origin of the clock. *)
Lemma run_origin calls :
  forall c r, In (Issued r) (run calendar c calls) ->
              Stamp.origin r = _origin c.
Proof.
  induction calls as [|call rest IH]; intros c r H; simpl in H; [easy|].
  destruct H as [H|H].
  - destruct call as [wall|a]; simpl in H.
    + destruct (issueTimestamp calendar c wall) as [[s c']|e] eqn:I;
        simpl in H; [|discriminate].
      injection H as ->. now apply issue_ok in I as (_ & O & _).
    + destruct (Stamp.as_ a), (seeTimestamp c a); discriminate.
  - rewrite <- (step_origin c call). now apply IH.
Qed.

End WithCalendar.

(** The constructor keeps the Timestamp it is given and takes its
    origin. *)
Lemma new_ok ms a options wall c :
  new ms a options wall = Ok c ->
  exists s, Stamp.as_ a = Ok s /\ _last c = s /\ _origin c = Stamp.origin s.
Proof.
  unfold new.
  change (match a with
          | Stamp.Wire text => Stamp.parse text
          | Stamp.Obj s => Ok s
          end) with (Stamp.as_ a).
  destruct (Stamp.as_ a) as [s|e]; simpl; [|discriminate].
  intros H. exists s. split; [reflexivity|].
  destruct options as [o|]; [|now injection H as <-].
  destruct (minLength o) as [m|]; [destruct (m =? 0)|];
    (destruct (learnOffset o);
     [|destruct (offset o) as [k|]; [destruct (k =? 0)|]]);
    injection H as <-; now split.
Qed.

Lemma to_int32_small k : - 2 ^ 31 <= k < 2 ^ 31 -> to_int32 k = k.
Proof.
  intros H. unfold to_int32. rewrite Z.mod_small; lia.
Qed.

End ClockFacts.

(** ** Claims about the Hybrid Clock *)

Section ClockClaims.
Import Clock StampFacts Base64x64Facts ClockFacts.

(** C1. Monotonicity: in every sequence of [issueTimestamp] and
    [seeTimestamp] calls on one clock, each result of [issueTimestamp] is
    strictly greater, in the order of Timestamps, than every Timestamp
    issued before it and every Timestamp passed to [seeTimestamp] before
    it. *)
Theorem issue_above_history (calendar : Z -> Base64x64.t) (c : Clock.t)
    (calls : list Call) (pre post : list Event) (r p : Stamp.t) :
  run calendar c calls = (pre ++ Issued r :: post)%list ->
  In (Issued p) pre \/ In (Seen p) pre ->
  Stamp.gt r p = true.
Proof.
  intros E Hp.
  apply (run_monotone calendar calls c [] (fun q (H : In q []) =>
           match H with end) pre r post E p).
  right. destruct Hp as [Hp|Hp].
  - exists (Issued p). split; [exact Hp | now left].
  - exists (Seen p). split; [exact Hp | now left].
Qed.

Lemma issue_above_history_witness :
  run plain_calendar (Clock.mk (Stamp.mk "0" "A") "A" 0 6)
    [Issue 500000000123; See (Stamp.Wire "7Gs-B"); Issue 500000000123] =
  ([Issued (Stamp.mk "07HfKd" "A"); Seen (Stamp.mk "7Gs" "B")] ++
   Issued (Stamp.mk "7Gt" "A") :: [])%list /\
  Stamp.gt (Stamp.mk "7Gt" "A") (Stamp.mk "7Gs" "B") = true /\
  Stamp.gt (Stamp.mk "7Gt" "A") (Stamp.mk "07HfKd" "A") = true.
Proof.
  assert (E : run plain_calendar (Clock.mk (Stamp.mk "0" "A") "A" 0 6)
                [Issue 500000000123; See (Stamp.Wire "7Gs-B");
                 Issue 500000000123] =
              ([Issued (Stamp.mk "07HfKd" "A"); Seen (Stamp.mk "7Gs" "B")] ++
               Issued (Stamp.mk "7Gt" "A") :: [])%list)
    by (vm_compute; reflexivity).
  split; [exact E|]. split.
  - apply (issue_above_history _ _ _ _ _ _ _ E). right. simpl. auto.
  - apply (issue_above_history _ _ _ _ _ _ _ E). left. simpl. auto.
Defined.

(** C2, as stated, fails on its second half: on a fresh clock with minimum
    length 6 the first issue is shortened to six symbols, so within the same
    millisecond the candidate is still above it and the second issue is a
    longer prefix of the candidate, not the first value plus one. *)
Lemma same_millisecond_counterexample :
  issueTimestamp plain_calendar (Clock.mk (Stamp.mk "0" "A") "A" 0 6)
    500000000123 =
  Ok (Stamp.mk "07HfKd" "A", Clock.mk (Stamp.mk "07HfKd" "A") "A" 0 6) /\
  issueTimestamp plain_calendar (Clock.mk (Stamp.mk "07HfKd" "A") "A" 0 6)
    500000000123 =
  Ok (Stamp.mk "07HfKdX" "A", Clock.mk (Stamp.mk "07HfKdX" "A") "A" 0 6) /\
  Base64x64.increment "07HfKd" = Ok "07HfKe" /\
  Base64x64.increment "07HfKd" <> Ok "07HfKdX" /\
  Base64x64.decode "07HfKd" = Ok 131071999463129088%N /\
  Base64x64.decode "07HfKdX" = Ok 131072000016777216%N.
Proof.
  split; [|split; [|split; [|split; [|split]]]];
    try (vm_compute; reflexivity).
  vm_compute. discriminate.
Qed.

(** C2, amended. When the wall-clock candidate is not strictly greater than
    [_last], [issueTimestamp] does what [last.next(origin)] does and returns
    its Timestamp, which becomes [_last]. Two issues within the same
    millisecond return distinct Timestamps, the second above the first; the
    second's value is the first's incremented whenever the candidate is not
    strictly greater than the first result, as it is when the first issue
    was itself a fallback. *)
Theorem fallback_bumps_last (calendar : Z -> Base64x64.t) (c : Clock.t)
    (wall : Z) :
  let candidate := now calendar (_origin c) (_offset c) wall in
  (Stamp.gt candidate (_last c) = false ->
   issueTimestamp calendar c wall =
   bind (Stamp.next (_last c) (_origin c))
     (fun r => Ok (r, set_last c r))) /\
  (forall r1 c1 r2 c2,
     issueTimestamp calendar c wall = Ok (r1, c1) ->
     issueTimestamp calendar c1 wall = Ok (r2, c2) ->
     Stamp.gt r2 r1 = true /\ r2 <> r1 /\
     (Stamp.gt candidate (_last c) = false ->
      Stamp.gt candidate r1 = false) /\
     (Stamp.gt candidate r1 = false ->
      Base64x64.increment (Stamp.value r1) = Ok (Stamp.value r2))).
Proof.
  intros candidate. split; [apply issue_fallback|].
  intros r1 c1 r2 c2 I1 I2.
  destruct (issue_ok calendar c wall r1 c1 I1) as (-> & O1 & G1).
  destruct (issue_ok calendar _ wall r2 c2 I2) as (_ & _ & G2).
  simpl in G2. repeat split; trivial.
  - now apply gt_neq.
  - intros F. apply gt_asym. now apply (gt_ge_trans r1 (_last c) candidate).
  - intros F. rewrite issue_fallback in I2 by exact F. simpl in I2.
    unfold Stamp.next in I2.
    destruct (Base64x64.increment (Stamp.value r1)) as [v|e]; simpl in I2;
      [|discriminate].
    now injection I2 as <- _.
Qed.

Lemma fallback_bumps_last_witness :
  issueTimestamp plain_calendar
    (Clock.mk (Stamp.mk "07HfKdXw" "A") "A" 0 6) 500000000123 =
  Ok (Stamp.mk "07HfKdXx" "A", Clock.mk (Stamp.mk "07HfKdXx" "A") "A" 0 6) /\
  Base64x64.increment "07HfKdXx" = Ok "07HfKdXy".
Proof.
  destruct (fallback_bumps_last plain_calendar
              (Clock.mk (Stamp.mk "07HfKdXw" "A") "A" 0 6) 500000000123)
    as [F T].
  split.
  - rewrite F by (vm_compute; reflexivity). vm_compute. reflexivity.
  - apply (T (Stamp.mk "07HfKdXx" "A")
             (Clock.mk (Stamp.mk "07HfKdXx" "A") "A" 0 6)
             (Stamp.mk "07HfKdXy" "A")
             (Clock.mk (Stamp.mk "07HfKdXy" "A") "A" 0 6));
      vm_compute; reflexivity.
Defined.

(** C3. On a clock whose minimum length is below 8, a call whose wall-clock
    candidate is strictly greater than [_last] returns a Timestamp with the
    candidate's origin whose value is the candidate's value relaxed against
    [_last]'s value: a prefix of it that keeps at least the minimum length
    when the candidate has it. That Timestamp is the new [_last]. *)
Theorem issue_relaxes_candidate (calendar : Z -> Base64x64.t) (c : Clock.t)
    (wall : Z) :
  let candidate := now calendar (_origin c) (_offset c) wall in
  let r := Stamp.mk
             (Base64x64.relax (Stamp.value candidate)
                (Stamp.value (_last c)) (_minlen c))
             (Stamp.origin candidate) in
  _minlen c < 8 ->
  Stamp.gt candidate (_last c) = true ->
  issueTimestamp calendar c wall = Ok (r, set_last c r) /\
  _last (set_last c r) = r /\
  (exists rest, Stamp.value candidate = Stamp.value r ++ rest) /\
  ((Z.to_nat (_minlen c) <= String.length (Stamp.value candidate))%nat ->
   (Z.to_nat (_minlen c) <= String.length (Stamp.value r))%nat).
Proof.
  intros candidate r Hm G. split; [|split; [reflexivity|]].
  - exact (issue_relaxed calendar c wall G Hm).
  - apply relax_shape.
Qed.

Lemma issue_relaxes_candidate_witness :
  issueTimestamp plain_calendar (Clock.mk (Stamp.mk "07HfKd" "A") "A" 0 6)
    500000000123 =
  Ok (Stamp.mk "07HfKdX" "A", Clock.mk (Stamp.mk "07HfKdX" "A") "A" 0 6).
Proof.
  apply (issue_relaxes_candidate plain_calendar
           (Clock.mk (Stamp.mk "07HfKd" "A") "A" 0 6) 500000000123);
    [simpl; lia | vm_compute; reflexivity].
Defined.



(** C5, as stated, fails: a minimum length of 0 and an offset of 2^32 are
    given, yet the clock keeps the default minimum length 6 and the
    offset 0. *)
Lemma constructor_counterexample :
  new plain_ms (Stamp.Obj (Stamp.mk "07HfKd" "A"))
    (Some (mkOptions (Some 0) false (Some 4294967296))) 500000000123 =
  Ok (Clock.mk (Stamp.mk "07HfKd" "A") "A" 0 6).
Proof. vm_compute. reflexivity. Qed.

(** C5, amended. A newly constructed clock has the supplied Timestamp (parsed
    if it came as text) as [_last] and its origin as [_origin]. [_minlen] is
    [options.minLength] when that is given and not zero, otherwise 6.
    [_offset] is the millisecond field of the supplied Timestamp minus the
    wall-clock reading when [learnOffset] is set; otherwise the supplied
    offset reduced to a signed 32-bit integer, which is the offset itself
    when it fits; otherwise 0. *)
Theorem new_state (ms : Base64x64.t -> Z) (a : Stamp.arg)
    (options : option Options) (wall : Z) :
  new ms a options wall =
  bind (Stamp.as_ a) (fun now0 =>
    Ok (Clock.mk now0 (Stamp.origin now0)
          match options with
          | None => 0
          | Some o =>
              if learnOffset o then ms (Stamp.value now0) - wall
              else match offset o with
                   | Some k => to_int32 k
                   | None => 0
                   end
          end
          match options with
          | None => 6
          | Some o =>
              match minLength o with
              | Some m => if m =? 0 then 6 else m
              | None => 6
              end
          end)) /\
  (forall k, - 2 ^ 31 <= k < 2 ^ 31 -> to_int32 k = k).
Proof.
  split; [|apply to_int32_small].
  unfold new.
  change (match a with
          | Stamp.Wire text => Stamp.parse text
          | Stamp.Obj s => Ok s
          end) with (Stamp.as_ a).
  destruct (Stamp.as_ a) as [s|e]; simpl; [|reflexivity].
  destruct options as [o|]; [|reflexivity].
  destruct (minLength o) as [m|]; [destruct (m =? 0)|];
    (destruct (learnOffset o);
     [|destruct (offset o) as [k|];
       [destruct (Z.eqb_spec k 0) as [->|]|]]);
    reflexivity.
Qed.

Lemma new_state_witness :
  new plain_ms (Stamp.Wire "07HfKd-A")
    (Some (mkOptions (Some 7) false (Some 5000))) 500000000123 =
  Ok (Clock.mk (Stamp.mk "07HfKd" "A") "A" 5000 7) /\
  to_int32 5000 = 5000.
Proof.
  destruct (new_state plain_ms (Stamp.Wire "07HfKd-A")
              (Some (mkOptions (Some 7) false (Some 5000))) 500000000123)
    as [N T].
  split; [rewrite N; vm_compute; reflexivity | apply T; lia].
Defined.



(** C9. Every Timestamp [issueTimestamp] returns carries the clock's own
    origin, the one of the Timestamp supplied at construction, whichever
    branch produced it and whatever Timestamps of other replicas were seen
    in between. *)
Theorem issued_carries_own_origin (calendar : Z -> Base64x64.t)
    (ms : Base64x64.t -> Z) (a : Stamp.arg) (options : option Options)
    (wall : Z) (c : Clock.t) (calls : list Call) (r : Stamp.t) :
  new ms a options wall = Ok c ->
  In (Issued r) (run calendar c calls) ->
  exists s0, Stamp.as_ a = Ok s0 /\ Stamp.origin r = Stamp.origin s0.
Proof.
  intros N H. apply new_ok in N as (s0 & A & _ & O).
  exists s0. split; [exact A|]. rewrite <- O.
  now apply (run_origin calendar calls).
Qed.

Lemma issued_carries_own_origin_witness :
  exists s0, Stamp.as_ (Stamp.Wire "07HfKd-A") = Ok s0 /\
             Stamp.origin (Stamp.mk "07HfLs" "A") = Stamp.origin s0.
Proof.
  apply (issued_carries_own_origin plain_calendar plain_ms
           (Stamp.Wire "07HfKd-A") None 500000000123
           (Clock.mk (Stamp.mk "07HfKd" "A") "A" 0 6)
           [See (Stamp.Obj (Stamp.mk "07HfLr" "B")); Issue 500000000123]).
  - vm_compute. reflexivity.
  - vm_compute. right. left. reflexivity.
Defined.

(** C10. [issueTimestamp] and [seeTimestamp] change [_last] only:
    [_origin], [_offset] and [_minlen] are what they were, after each call
    and after every sequence of calls. *)
Theorem calls_change_last_only (calendar : Z -> Base64x64.t) (c : Clock.t) :
  (forall wall r c',
     issueTimestamp calendar c wall = Ok (r, c') ->
     _origin c' = _origin c /\ _offset c' = _offset c /\
     _minlen c' = _minlen c) /\
  (forall stamp c',
     seeTimestamp c stamp = Ok c' ->
     _origin c' = _origin c /\ _offset c' = _offset c /\
     _minlen c' = _minlen c) /\
  (forall calls,
     _origin (final calendar c calls) = _origin c /\
     _offset (final calendar c calls) = _offset c /\
     _minlen (final calendar c calls) = _minlen c).
Proof.
  split; [|split].
  - intros wall r c' I. now apply issue_ok in I as (-> & _).
  - intros stamp c' S. apply see_ok in S as (s & _ & ->).
    now destruct (Stamp.gt s (_last c)).
  - intros calls. now rewrite final_config.
Qed.

Lemma calls_change_last_only_witness :
  _origin (Clock.mk (Stamp.mk "07HfLr" "B") "A" 5000 7) = "A" /\
  _offset (Clock.mk (Stamp.mk "07HfLr" "B") "A" 5000 7) = 5000 /\
  _minlen (Clock.mk (Stamp.mk "07HfLr" "B") "A" 5000 7) = 7.
Proof.
  apply (proj1 (proj2 (calls_change_last_only plain_calendar
                         (Clock.mk (Stamp.mk "07HfKd" "A") "A" 5000 7)))
           (Stamp.Wire "07HfLr-B")).
  vm_compute. reflexivity.
Defined.

End ClockClaims.

(** ** Claims about the Version Vector *)

Section VersionVectorClaims.

(** C8. Version Vector merge takes the per-origin maximum and obeys the
    lattice laws: it is commutative, idempotent and associative. *)
Theorem merge_lattice (A B C : gmap N N) :
  VV.merge A B = VV.merge B A /\
  VV.merge A A = A /\
  VV.merge (VV.merge A B) C = VV.merge A (VV.merge B C) /\
  (forall o : N,
     VV.merge A B !! o =
     match A !! o, B !! o with
     | Some x, Some y => Some (N.max x y)
     | Some x, None => Some x
     | None, y => y
     end).
Proof.
  unfold VV.merge. repeat split.
  - apply map_eq. intros o. rewrite !lookup_union_with.
    destruct (A !! o), (B !! o); simpl; try reflexivity.
    now rewrite N.max_comm.
  - apply map_eq. intros o. rewrite lookup_union_with.
    destruct (A !! o); simpl; [|reflexivity]. now rewrite N.max_id.
  - apply map_eq. intros o. rewrite !lookup_union_with.
    destruct (A !! o), (B !! o), (C !! o); simpl; try reflexivity.
    now rewrite N.max_assoc.
  - intros o. rewrite lookup_union_with.
    now destruct (A !! o), (B !! o).
Qed.

End VersionVectorClaims.

(** ** The clock and its history *)

Module ClockHistory.
Import Clock StampFacts ClockFacts.

Section WithCalendar.
Variable calendar : Z -> Base64x64.t.

(** Not above, chained. *)
Lemma not_gt_trans p l s :
  Stamp.gt p l = false -> Stamp.gt l s = false -> Stamp.gt p s = false.
Proof.
  intros Hpl Hls. destruct (Stamp.gt p s) eqn:G; [|reflexivity].
  rewrite (gt_ge_trans p s l G Hls) in Hpl. discriminate.
Qed.

(** A call leaves [_last] where it was or moves it to what it records. *)
Lemma step_last c call :
  _last (snd (step calendar c call)) = _last c \/
  In (_last (snd (step calendar c call)))
    (stamp_of (fst (step calendar c call))).
Proof.
  destruct call as [wall|a]; cbn [step].
  - destruct (issueTimestamp calendar c wall) as [[s c']|e] eqn:I;
      cbn [fst snd stamp_of]; [|now left].
    apply issue_ok in I as (-> & _ & _). right. now left.
  - destruct (Stamp.as_ a) as [s|e] eqn:A;
      destruct (seeTimestamp c a) as [c'|e'] eqn:S;
      cbn [fst snd stamp_of]; try now left.
    apply see_ok in S as (s' & A' & ->). rewrite A in A'. injection A' as <-.
    destruct (Stamp.gt s (_last c)); [right; now left | now left].
Qed.

Lemma last_in_history calls :
  forall c, In (_last (final calendar c calls))
              (_last c :: recorded (run calendar c calls)).
Proof.
  induction calls as [|call rest IH]; intros c; cbn [final run recorded];
    [now left|].
  cbn [flat_map]. fold (recorded (run calendar (snd (step calendar c call))
                                    rest)).
  destruct (IH (snd (step calendar c call))) as [E|H].
  - rewrite <- E. destruct (step_last c call) as [->|H]; [now left|].
    right. apply in_or_app. now left.
  - right. apply in_or_app. now right.
Qed.

Lemma history_below_last calls :
  forall c (before : list Stamp.t),
    (forall p, In p before -> Stamp.gt p (_last c) = false) ->
    forall p, In p (recorded (run calendar c calls) ++ before)%list ->
              Stamp.gt p (_last (final calendar c calls)) = false.
Proof.
  induction calls as [|call rest IH]; intros c before Inv p Hp;
    cbn [final run recorded flat_map] in *; [now apply Inv|].
  destruct (step_invariant calendar c call before Inv) as [_ Inv'].
  apply (IH _ _ Inv'). fold (recorded (run calendar (snd (step calendar c call))
                                        rest)) in Hp.
  rewrite !in_app_iff in *. tauto.
Qed.

(** What is issued is above the [_last] the clock started from. *)
Lemma issued_above_start c calls r :
  In (Issued r) (run calendar c calls) -> Stamp.gt r (_last c) = true.
Proof.
  intros H. apply in_split in H as (pre & post & E).
  apply (run_monotone calendar calls c [_last c]) with (pre := pre)
    (post := post); [|exact E|left; now left].
  intros p [<-|[]]. apply gt_irrefl.
Qed.

(** One call of a clock whose minimum length is 8 or more does not depend
    on that length. *)
Lemma step_unshortened c m1 m2 call :
  8 <= m1 -> 8 <= m2 ->
  exists c',
    step calendar (set_minlen c m1) call =
    (fst (step calendar (set_minlen c m2) call), set_minlen c' m1) /\
    snd (step calendar (set_minlen c m2) call) = set_minlen c' m2.
Proof.
  intros H1 H2. destruct call as [wall|a]; cbn [step].
  - unfold issueTimestamp. cbn [_last _origin _offset _minlen set_minlen].
    apply Z.ltb_ge in H1, H2. rewrite H1, H2.
    destruct (negb (Stamp.gt (now calendar (_origin c) (_offset c) wall)
                      (_last c))).
    + destruct (Stamp.next (_last c) (_origin c)) as [s|e]; simpl.
      * now exists (set_last c s).
      * now exists c.
    + simpl.
      now exists (set_last c (now calendar (_origin c) (_offset c) wall)).
  - unfold seeTimestamp. cbn [_last set_minlen].
    destruct (Stamp.as_ a) as [s|e]; simpl; [|now exists c].
    destruct (Stamp.gt s (_last c)); simpl;
      [now exists (set_last c s) | now exists c].
Qed.

End WithCalendar.

Lemma to_int32_range k : - 2 ^ 31 <= to_int32 k < 2 ^ 31.
Proof.
  unfold to_int32.
  pose proof (Z.mod_pos_bound (k + 2 ^ 31) (2 ^ 32) ltac:(lia)). lia.
Qed.

End ClockHistory.

(** ** Further properties of the clock *)

Section ClockExtras.
Import Clock StampFacts ClockFacts ClockHistory.

(** X1. Every Timestamp issued after construction, however many calls
    later, is strictly greater than the Timestamp the clock was constructed
    from. *)
Theorem issue_above_construction (calendar : Z -> Base64x64.t)
    (ms : Base64x64.t -> Z) (a : Stamp.arg) (options : option Options)
    (wall : Z) (c : Clock.t) (calls : list Call) (r s0 : Stamp.t) :
  new ms a options wall = Ok c ->
  Stamp.as_ a = Ok s0 ->
  In (Issued r) (run calendar c calls) ->
  Stamp.gt r s0 = true.
Proof.
  intros N A H. apply new_ok in N as (s & A' & L & _).
  rewrite A in A'. injection A' as <-. rewrite <- L.
  now apply (issued_above_start calendar c calls).
Qed.

Lemma issue_above_construction_witness :
  Stamp.gt (Stamp.mk "7Gt" "A") (Stamp.mk "07HfKd" "A") = true.
Proof.
  apply (issue_above_construction plain_calendar plain_ms
           (Stamp.Wire "07HfKd-A") None 500000000123
           (Clock.mk (Stamp.mk "07HfKd" "A") "A" 0 6)
           [See (Stamp.Wire "7Gs-B"); Issue 500000000123]).
  - vm_compute. reflexivity.
  - vm_compute. reflexivity.
  - vm_compute. right. left. reflexivity.
Defined.

(** X2. After any sequence of calls [_last] is a greatest element of the
    clock's history: it is the Timestamp the clock started from or one that
    was issued or seen, and nothing of these is strictly greater than it. In
    particular [_last] never moves down. *)
Theorem last_is_greatest_of_history (calendar : Z -> Base64x64.t)
    (c : Clock.t) (calls : list Call) :
  In (_last (final calendar c calls))
    (_last c :: recorded (run calendar c calls)) /\
  (forall p, In p (_last c :: recorded (run calendar c calls)) ->
             Stamp.gt p (_last (final calendar c calls)) = false).
Proof.
  split; [apply last_in_history|].
  intros p Hp.
  apply (history_below_last calendar calls c [_last c]).
  - intros q [<-|[]]. apply gt_irrefl.
  - apply in_or_app. destruct Hp as [<-|Hp]; [right; now left | now left].
Qed.

Lemma last_is_greatest_of_history_witness :
  Stamp.gt (Stamp.mk "07HfKd" "A") (Stamp.mk "7Gs" "B") = false.
Proof.
  apply (proj2 (last_is_greatest_of_history plain_calendar
                  (Clock.mk (Stamp.mk "0" "A") "A" 0 6)
                  [Issue 500000000123; See (Stamp.Wire "7Gs-B");
                   See (Stamp.Wire "1-C")])
           (Stamp.mk "07HfKd" "A")).
  vm_compute. right. left. reflexivity.
Defined.

(** X3. Restart from a stored Timestamp: a clock constructed from a
    Timestamp that is not below the [_last] an earlier clock ended with
    issues only Timestamps strictly greater than everything the earlier
    clock started from, issued or saw. *)
Theorem restart_above_history (calendar calendar' : Z -> Base64x64.t)
    (ms : Base64x64.t -> Z) (c : Clock.t) (calls : list Call)
    (a : Stamp.arg) (options : option Options) (wall : Z) (c' : Clock.t)
    (calls' : list Call) (s0 r p : Stamp.t) :
  Stamp.as_ a = Ok s0 ->
  Stamp.gt (_last (final calendar c calls)) s0 = false ->
  new ms a options wall = Ok c' ->
  In (Issued r) (run calendar' c' calls') ->
  In p (_last c :: recorded (run calendar c calls)) ->
  Stamp.gt r p = true.
Proof.
  intros A B N H Hp.
  apply (gt_ge_trans r s0 p).
  - apply new_ok in N as (s & A' & L & _).
    rewrite A in A'. injection A' as <-. rewrite <- L.
    now apply (issued_above_start calendar' c' calls').
  - apply (not_gt_trans p (_last (final calendar c calls)) s0); [|exact B].
    apply (history_below_last calendar calls c [_last c]).
    + intros q [<-|[]]. apply gt_irrefl.
    + apply in_or_app. destruct Hp as [<-|Hp]; [right; now left | now left].
Qed.

Lemma restart_above_history_witness :
  Stamp.gt (Stamp.mk "7Gu" "A") (Stamp.mk "07HfKd" "A") = true.
Proof.
  apply (restart_above_history plain_calendar plain_calendar plain_ms
           (Clock.mk (Stamp.mk "0" "A") "A" 0 6)
           [Issue 500000000123; See (Stamp.Wire "7Gs-B")]
           (Stamp.Wire "7Gt-A") None 500000000123
           (Clock.mk (Stamp.mk "7Gt" "A") "A" 0 6)
           [Issue 500000000123]
           (Stamp.mk "7Gt" "A")).
  - vm_compute. reflexivity.
  - vm_compute. reflexivity.
  - vm_compute. reflexivity.
  - vm_compute. left. reflexivity.
  - vm_compute. right. left. reflexivity.
Defined.

(** X4. [seeTimestamp] is idempotent: seeing the same Timestamp again
    leaves the clock as the first call left it. *)
Theorem see_again_changes_nothing (c c1 : Clock.t) (a : Stamp.arg) :
  seeTimestamp c a = Ok c1 -> seeTimestamp c1 a = Ok c1.
Proof.
  intros S. destruct (see_ok c a c1 S) as (s & A & _).
  pose proof (see_dominates c a c1 s S A) as D.
  unfold seeTimestamp. rewrite A. simpl. now rewrite D.
Qed.

Lemma see_again_changes_nothing_witness :
  seeTimestamp (Clock.mk (Stamp.mk "7Gs" "B") "A" 0 6)
    (Stamp.Wire "7Gs-B") =
  Ok (Clock.mk (Stamp.mk "7Gs" "B") "A" 0 6).
Proof.
  apply (see_again_changes_nothing
           (Clock.mk (Stamp.mk "07HfKd" "A") "A" 0 6)).
  vm_compute. reflexivity.
Defined.

(** X5. A clock that is shown a Timestamp it has just issued does not
    change. *)
Theorem see_own_issue_changes_nothing (calendar : Z -> Base64x64.t)
    (c c' : Clock.t) (wall : Z) (r : Stamp.t) :
  issueTimestamp calendar c wall = Ok (r, c') ->
  seeTimestamp c' (Stamp.Obj r) = Ok c'.
Proof.
  intros I. apply issue_ok in I as (-> & _ & _).
  rewrite see_obj. simpl. now rewrite gt_irrefl.
Qed.

Lemma see_own_issue_changes_nothing_witness :
  seeTimestamp (Clock.mk (Stamp.mk "07HfKd" "A") "A" 0 6)
    (Stamp.Obj (Stamp.mk "07HfKd" "A")) =
  Ok (Clock.mk (Stamp.mk "07HfKd" "A") "A" 0 6).
Proof.
  apply (see_own_issue_changes_nothing plain_calendar
           (Clock.mk (Stamp.mk "0" "A") "A" 0 6) _ 500000000123).
  vm_compute. reflexivity.
Defined.

(** X7. Shortening is off from a minimum length of 8 on: two clocks that
    differ only in a minimum length of 8 or more answer every sequence of
    calls alike. *)
Theorem minimum_length_from_8_is_immaterial (calendar : Z -> Base64x64.t)
    (c : Clock.t) (m1 m2 : Z) (calls : list Call) :
  8 <= m1 -> 8 <= m2 ->
  run calendar (set_minlen c m1) calls =
  run calendar (set_minlen c m2) calls.
Proof.
  intros H1 H2. revert c.
  induction calls as [|call rest IH]; intros c; [reflexivity|].
  cbn [run].
  destruct (step_unshortened calendar c m1 m2 call H1 H2) as (c' & E1 & E2).
  rewrite E1, E2. cbn [fst snd]. now rewrite IH.
Qed.

Lemma minimum_length_from_8_is_immaterial_witness :
  run plain_calendar (set_minlen (Clock.mk (Stamp.mk "0" "A") "A" 0 6) 8)
    [Issue 500000000123; Issue 500000000123] =
  run plain_calendar (set_minlen (Clock.mk (Stamp.mk "0" "A") "A" 0 6) 11)
    [Issue 500000000123; Issue 500000000123].
Proof.
  apply (minimum_length_from_8_is_immaterial plain_calendar); lia.
Defined.

(** X8. Unless [learnOffset] is set, the offset of a constructed clock is a
    signed 32-bit integer, and it stays one through every sequence of
    calls. *)
Theorem explicit_offset_is_int32 (calendar : Z -> Base64x64.t)
    (ms : Base64x64.t -> Z) (a : Stamp.arg) (options : option Options)
    (wall : Z) (c : Clock.t) (calls : list Call) :
  match options with
  | Some o => learnOffset o = false
  | None => True
  end ->
  new ms a options wall = Ok c ->
  - 2 ^ 31 <= _offset (final calendar c calls) < 2 ^ 31.
Proof.
  intros L N. rewrite final_config. cbn [_offset set_last].
  unfold new in N.
  destruct (match a with
            | Stamp.Wire text => Stamp.parse text
            | Stamp.Obj s => Ok s
            end) as [s|e]; simpl in N; [|discriminate].
  destruct options as [o|]; [|injection N as <-; simpl; lia].
  rewrite L in N.
  destruct (minLength o) as [m|]; [destruct (m =? 0)|];
    (destruct (offset o) as [k|]; [destruct (k =? 0)|]);
    injection N as <-; simpl; try lia; apply to_int32_range.
Qed.

Lemma explicit_offset_is_int32_witness :
  - 2 ^ 31 <=
  _offset (final plain_calendar
             (Clock.mk (Stamp.mk "07HfKd" "A") "A" (-1) 6)
             [Issue 500000000123]) < 2 ^ 31.
Proof.
  apply (explicit_offset_is_int32 plain_calendar plain_ms
           (Stamp.Wire "07HfKd-A")
           (Some (mkOptions None false (Some 4294967295))) 500000000123).
  - reflexivity.
  - vm_compute. reflexivity.
Defined.

(** X9. The order of calls matters only through what they put on record:
    if everything one sequence of calls records is also recorded by another
    sequence on the same clock, the first does not end with a strictly
    greater [_last]. Sequences that record the same Timestamps, such as the
    same Timestamps seen in another order, end with [_last]s neither of
    which is above the other. *)
Theorem more_history_no_lower_last (calendar : Z -> Base64x64.t)
    (c : Clock.t) (calls1 calls2 : list Call) :
  (forall p, In p (recorded (run calendar c calls1)) ->
             In p (recorded (run calendar c calls2))) ->
  Stamp.gt (_last (final calendar c calls1))
    (_last (final calendar c calls2)) = false.
Proof.
  intros Sub.
  apply (history_below_last calendar calls2 c [_last c]).
  - intros q [<-|[]]. apply gt_irrefl.
  - apply in_or_app.
    destruct (last_in_history calendar calls1 c) as [<-|H];
      [right; now left | left; now apply Sub].
Qed.

Lemma more_history_no_lower_last_witness :
  Stamp.gt
    (_last (final plain_calendar (Clock.mk (Stamp.mk "0" "A") "A" 0 6)
              [See (Stamp.Wire "7Gs-B"); See (Stamp.Wire "7Gs0-B")]))
    (_last (final plain_calendar (Clock.mk (Stamp.mk "0" "A") "A" 0 6)
              [See (Stamp.Wire "7Gs0-B"); See (Stamp.Wire "7Gs-B")])) =
  false.
Proof.
  apply (more_history_no_lower_last plain_calendar).
  vm_compute. intros p [<-|[<-|[]]]; auto.
Defined.

End ClockExtras.
